(** * udr, src/misc.cpp: the five numerical helper routines

    A shallow embedding of [scale_rows], [softmax], [safenormalize],
    [crossprod] and [ldmvnorm], and the properties of each.

    Modelling choices.
    - An Armadillo [mat], [vec] (column vector) and [rowvec] is a MathComp
      matrix over the reals: ['M[R]_(m, n)], ['cV[R]_n], ['rV[R]_n].  The
      dimensions are part of the type, as [n_rows], [n_cols] and [n_elem]
      are part of the object.
    - A [double] is a real number of the Standard Library.  Every
      arithmetic operation is the exact one: rounding, infinities and NaN
      are outside the model.  An operation whose IEEE result is not a real
      number (the logarithm of a non-positive number) or whose behaviour is
      undefined in C++ (an integer division by zero) ends the run with a
      [failure].
    - The [unsigned int] of [safenormalize] is a binary natural number
      reduced modulo 2^32, and its division is the integer division.
    - Armadillo's [solve] is not part of the repository: it is a parameter
      of [ldmvnorm], constrained by its contract on nonsingular systems.
    - The branch that [safenormalize] takes and the quotients it stores
      depend on rounding and overflow, which the reals do not have.
      [safenormalize] is therefore modelled a second time, on the kernel's
      binary64 numbers ([Binary64.safenormalize]), with Armadillo's [sum]
      as a parameter. *)

Set Warnings "-notation-overridden,-ambiguous-paths".
Set Warnings "-redundant-canonical-projection,-rewrite-rw,-inexact-float".

From HB Require Import structures.
From Stdlib Require Import Reals Lra BinNat Epsilon FunctionalExtensionality.
From Stdlib Require Floats Uint63.
From mathcomp Require Import ssreflect ssrfun ssrbool eqtype ssrnat seq choice.
From mathcomp Require Import fintype bigop ssralg matrix.

Set Implicit Arguments.
Unset Strict Implicit.
Unset Printing Implicit Defensive.

Delimit Scope R_scope with Re.
Delimit Scope ring_scope with R.
Import GRing.Theory.
Local Open Scope ring_scope.

(** ** The reals as a MathComp field *)

Module RealField.

Definition eqr (a b : R) : bool :=
  if Req_dec_T a b is left _ then true else false.

Lemma eqrP : Equality.axiom eqr.
Proof. by move=> a b; rewrite /eqr; case: Req_dec_T => h; constructor. Qed.

HB.instance Definition _ := hasDecEq.Build R eqrP.

Definition pick_real (P : pred R) (_ : nat) : option R :=
  let a := epsilon (inhabits R0) (fun b => P b : Prop) in
  if P a then Some a else None.

Lemma pick_real_some P n a : pick_real P n = Some a -> P a.
Proof. by rewrite /pick_real; case: ifP => // Pa [<-]. Qed.

Lemma pick_real_ex (P : pred R) : (exists a, P a) -> exists n, pick_real P n.
Proof.
move=> exP; exists 0%N; rewrite /pick_real.
by rewrite (epsilon_spec (inhabits R0) (fun b => P b : Prop) exP).
Qed.

Lemma pick_real_ext (P Q : pred R) : P =1 Q -> pick_real P =1 pick_real Q.
Proof.
move=> PQ n; have -> : P = Q by apply: functional_extensionality.
by [].
Qed.

HB.instance Definition _ :=
  hasChoice.Build R pick_real_some pick_real_ex pick_real_ext.

Lemma RplusA : associative Rplus.
Proof. by move=> a b c; rewrite Rplus_assoc. Qed.

HB.instance Definition _ :=
  GRing.isZmodule.Build R RplusA Rplus_comm Rplus_0_l Rplus_opp_l.

Lemma RmultA : associative Rmult.
Proof. by move=> a b c; rewrite Rmult_assoc. Qed.

Lemma Rmult_plus_l : left_distributive Rmult Rplus.
Proof. by move=> a b c; rewrite Rmult_plus_distr_r. Qed.

Lemma R1_nonzero : R1 != R0.
Proof. by apply/eqP; exact: R1_neq_R0. Qed.

HB.instance Definition _ :=
  GRing.Zmodule_isComNzRing.Build R
    RmultA Rmult_comm Rmult_1_l Rmult_plus_l R1_nonzero.

Lemma Rinv_mult_l (a : R) : a != 0 -> Rmult (Rinv a) a = 1.
Proof. by move/eqP => a0; rewrite Rinv_l. Qed.

HB.instance Definition _ := GRing.ComNzRing_isField.Build R Rinv_mult_l Rinv_0.

End RealField.
Import RealField.

(** ** Outcomes of a call *)

(** How a call can end without a real-valued result. *)
Inductive failure : Type :=
| LogicError          (* Armadillo's std::logic_error: a size check failed *)
| RuntimeError        (* Armadillo's std::runtime_error: no solution found *)
| UndefinedBehaviour  (* C++: integer division by zero *)
| NotReal.            (* IEEE 754: the value is an infinity or a NaN *)

Inductive outcome (A : Type) : Type :=
| Ret of A
| Fail of failure.

Arguments Ret {A} _.
Arguments Fail {A} _.

Definition bind {A B : Type} (e : outcome A) (k : A -> outcome B) : outcome B :=
  match e with
  | Ret a => k a
  | Fail f => Fail f
  end.

Notation "a <- e ;; k" := (bind e (fun a => k))
  (at level 61, e at next level, right associativity).

(** ** Armadillo's types and the operations misc.cpp uses *)

Definition mat (m n : nat) : Type := 'M[R]_(m, n).
Definition vec (n : nat) : Type := 'cV[R]_n.
Definition rowvec (n : nat) : Type := 'rV[R]_n.

Module Arma.

(** [A.each_col() %= c]: every column of [A] is multiplied element by
    element by the column [c]. *)
Definition each_col_schur m n (A : mat m n) (c : vec m) : mat m n :=
  \matrix_(i, j) (A i j * c i 0).

(** [max(x)] on a row vector with at least one element. *)
Definition max n (x : rowvec n.+1) : R :=
  \big[Rmax/x 0 0]_(j < n.+1) x 0 j.

(** [x - a], [x / a] and [a * x] with a scalar [a], and [exp(x)]:
    element by element. *)
Definition minus_scalar m n (x : mat m n) (a : R) : mat m n :=
  map_mx (fun t => (t - a)%Re) x.

Definition div_scalar m n (x : mat m n) (a : R) : mat m n :=
  map_mx (fun t => (t / a)%Re) x.

Definition times_scalar m n (a : R) (x : mat m n) : mat m n :=
  map_mx (fun t => (a * t)%Re) x.

Definition exp m n (x : mat m n) : mat m n := map_mx Rtrigo_def.exp x.

(** [sum(x)] of a column vector and of a row vector. *)
Definition sum n (x : vec n) : R := \sum_(i < n) x i 0.
Definition sum_row n (y : rowvec n) : R := \sum_(j < n) y 0 j.

(** [x.fill(a)]. *)
Definition fill n (a : R) : vec n := const_mx a.

(** [L.diag()]: the main diagonal as a column vector. *)
Definition diag n (L : mat n n) : vec n := \col_i L i i.

(** [norm(z, 2)]: the Euclidean norm. *)
Definition norm2 n (z : vec n) : R := sqrt (\sum_(i < n) (z i 0 * z i 0)).

(** [log(v)], element by element.  The logarithm of a [double] that is
    not positive is minus infinity or a NaN. *)
Definition positive (a : R) : bool :=
  if Rlt_dec 0 a is left _ then true else false.

Definition log n (v : vec n) : outcome (vec n) :=
  if [forall i, positive (v i 0)] then Ret (map_mx ln v) else Fail NotReal.

End Arma.

(** ** The [unsigned int] of [safenormalize] *)

(** [unsigned int n = x.n_elem]: the element count reduced modulo 2^32. *)
Definition uint_of_nat (n : nat) : N := N.modulo (N.of_nat n) (2 ^ 32)%num.

(** [a / b] on [unsigned int]. *)
Definition uint_div (a b : N) : outcome N :=
  if N.eqb b 0%num then Fail UndefinedBehaviour else Ret (N.div a b).

(** The conversion of an [unsigned int] to [double]. *)
Definition double_of_uint (a : N) : R := IZR (Z.of_N a).

(** ** misc.cpp *)

(** [void scale_rows (mat& A, const vec& b)].  The result is the caller's
    pair of objects after the call: [A] and [b] are two objects, [b] is
    copied into [c] and only read. *)
Definition scale_rows m n (A : mat m n) (b : vec m) : mat m n * vec m :=
  let c := b in
  (Arma.each_col_schur A c, b).

(** [rowvec softmax (const rowvec& x)].  [max] refuses an object with no
    elements. *)
Definition softmax n : rowvec n -> outcome (rowvec n) :=
  match n with
  | 0%N => fun _ => Fail LogicError
  | n'.+1 => fun x =>
      let y := Arma.exp (Arma.minus_scalar x (Arma.max x)) in
      Ret (Arma.div_scalar y (Arma.sum_row y))
  end.

(** [void safenormalize (vec& x)]: the result is [x] after the call.
    [1/n] is a division of [unsigned int]; its quotient is converted to
    [double] by [fill]. *)
Definition safenormalize n (x : vec n) : outcome (vec n) :=
  let n' := uint_of_nat n in
  if Rle_dec (Arma.sum x) 0 then
    q <- uint_div 1%num n';;
    Ret (Arma.fill n (double_of_uint q))
  else
    Ret (Arma.div_scalar x (Arma.sum x)).

(** [mat crossprod (const mat& X)]. *)
Definition crossprod m n (X : mat m n) : mat n n := X^T *m X.

Section Ldmvnorm.

(** Armadillo's [solve(L, x)] for a square [L]. *)
Variable solve : forall n, mat n n -> vec n -> outcome (vec n).

(** [double ldmvnorm (const vec& x, const mat& L)]. *)
Definition ldmvnorm n (x : vec n) (L : mat n n) : outcome R :=
  z <- solve L x;;
  let d := Arma.norm2 z in
  l <- Arma.log (Arma.times_scalar (sqrt (2 * PI)%Re) (Arma.diag L));;
  Ret (- d * d / 2 - Arma.sum l)%Re.

End Ldmvnorm.

(** ** Vocabulary of the properties *)

(** Vectors and matrices written out entry by entry. *)
Definition vec_of_seq (s : seq R) : vec (size s) := \col_i nth 0 s i.

Definition mat_of_rows (m n : nat) (rows : seq (seq R)) : mat m n :=
  \matrix_(i, j) nth 0 (nth [::] rows i) j.


Definition positive_diagonal n (L : mat n n) : Prop :=
  forall i : 'I_n, (0 < L i i)%Re.

(** The squared Euclidean norm of a column vector. *)
Definition sqnorm n (z : vec n) : R := \sum_(i < n) (z i 0 * z i 0).

(** What [ldmvnorm] needs of Armadillo's [solve]: on a nonsingular square
    system it returns a solution. *)
Definition solve_contract
    (solve : forall n, mat n n -> vec n -> outcome (vec n)) : Prop :=
  forall n (L : mat n n) (x : vec n),
    L \in unitmx -> exists2 z, solve n L x = Ret z & L *m z = x.

(** A solver that meets the contract: the solution by the inverse matrix,
    and a [std::runtime_error] on a singular system. *)
Definition solve_by_inverse n (L : mat n n) (x : vec n) : outcome (vec n) :=
  if L \in unitmx then Ret (invmx L *m x) else Fail RuntimeError.

(** The inputs of the worked examples. *)
Definition zeros4 : vec 4 := vec_of_seq [:: 0; 0; 0; 0]%Re.
Definition quarters4 : vec 4 := vec_of_seq [:: 0.25; 0.25; 0.25; 0.25]%Re.
Definition one_to_four : vec 4 := vec_of_seq [:: 1; 2; 3; 4]%Re.
Definition tenths4 : vec 4 := vec_of_seq [:: 0.1; 0.2; 0.3; 0.4]%Re.
Definition mixed_sign2 : vec 2 := vec_of_seq [:: 1; -3]%Re.
Definition zeros2 : vec 2 := vec_of_seq [:: 0; 0]%Re.
Definition A22 : mat 2 2 := mat_of_rows 2 2 [:: [:: 1; 2]; [:: 3; 4]]%Re.
Definition b12 : vec 2 := vec_of_seq [:: 1; 2]%Re.
Definition A22_scaled : mat 2 2 := mat_of_rows 2 2 [:: [:: 1; 2]; [:: 6; 8]]%Re.
Definition full22 : mat 2 2 := mat_of_rows 2 2 [:: [:: 2; 1]; [:: 1; 2]]%Re.
Definition full22_inv : mat 2 2 :=
  mat_of_rows 2 2 [:: [:: 2 / 3; - (1 / 3)]; [:: - (1 / 3); 2 / 3]]%Re.
Definition ones2 : vec 2 := vec_of_seq [:: 1; 1]%Re.

(** Vocabulary of the further properties: the element-wise product of
    column vectors, and more inputs. *)
Definition schur m (a b : vec m) : vec m := \col_i (a i 0 * b i 0).

Definition flipped22 : mat 2 2 := mat_of_rows 2 2 [:: [:: -1; 0]; [:: 0; 1]]%Re.
Definition flipped22_inv : mat 2 2 := flipped22.

(** ** [safenormalize] on binary64 numbers *)

(** A [double] is a binary64 number of the kernel, with the IEEE 754
    operations (round to nearest, infinities, NaN); a [vec] is the
    sequence of its elements. *)
Module Binary64.

Import PrimFloat.

(** Armadillo's [sum] of a vector adds the elements in double precision.
    The order of the additions is the library's: two running sums, over
    the elements of even and of odd index, added at the end
    ([accumulate]), or one running sum ([accumulate_loop]). *)
Fixpoint accumulate_pairs (acc1 acc2 : float) (x : seq float) : float :=
  match x with
  | a :: b :: x' => accumulate_pairs (acc1 + a)%float (acc2 + b)%float x'
  | [:: a] => ((acc1 + a) + acc2)%float
  | [::] => (acc1 + acc2)%float
  end.

Definition accumulate (x : seq float) : float :=
  accumulate_pairs 0%float 0%float x.

Definition accumulate_loop (x : seq float) : float :=
  foldl add 0%float x.

(** The conversion of an [unsigned int] to [double]. *)
Definition double_of_uint (a : N) : float :=
  of_uint63 (Uint63.of_Z (Z.of_N a)).

Section Safenormalize.

(** Armadillo's [sum]. *)
Variable sum : seq float -> float.

(** [void safenormalize (vec& x)]: the result is [x] after the call. *)
Definition safenormalize (x : seq float) : outcome (seq float) :=
  let n := uint_of_nat (size x) in
  if (sum x <=? 0)%float then
    q <- uint_div 1%num n;;
    Ret (nseq (size x) (double_of_uint q))
  else
    Ret [seq (t / sum x)%float | t <- x].

End Safenormalize.

(** The conversion of an integer to [double], for inputs given by their
    exact integer entries. *)
Definition double_of_Z (z : Z) : float :=
  if Z.ltb z 0 then (- of_uint63 (Uint63.of_Z (Z.opp z)))%float
  else of_uint63 (Uint63.of_Z z).

(** The inputs of the worked examples. *)
Definition one_to_four : seq float := [:: 1; 2; 3; 4]%float.
Definition tenths4 : seq float := [:: 0.1; 0.2; 0.3; 0.4]%float.
Definition zeros2 : seq float := [:: 0; 0]%float.
Definition zeros4 : seq float := [:: 0; 0; 0; 0]%float.
Definition mixed_sign2 : seq float := [:: 1; -3]%float.
Definition uneven3 : seq float := [:: 1; 10; 10]%float.
Definition cancelling10_integers : seq Z :=
  [:: 2 ^ 60; 0; -60; 0; -60; 0; -60; 0; - (2 ^ 60 - 128); 0]%Z.
Definition cancelling10 : seq float := map double_of_Z cancelling10_integers.

End Binary64.

(** * Properties *)

(** ** Real arithmetic behind the ring notations *)

(** Rewrites a goal on the field structure of [R] into the Standard
    Library's operations, for [lra] and [field]. *)
Ltac to_real :=
  rewrite /GRing.add /GRing.mul /GRing.opp /GRing.inv /GRing.zero /GRing.one /=;
  repeat match goal with
  | |- context [@eq ?T ?a ?b] =>
      lazymatch T with R => fail | _ => change (@eq T a b) with (@eq R a b) end
  end.

Section RealSums.

Variables (n : nat) (F : 'I_n -> R).

Lemma sum_nonneg (P : pred 'I_n) :
  (forall i, (0 <= F i)%Re) -> (0 <= \sum_(i < n | P i) F i)%Re.
Proof.
move=> F0; elim/big_ind: _ => //; first exact: Rle_refl.
by move=> a b a0 b0; apply: Rplus_le_le_0_compat.
Qed.

Lemma sum_lower (j : 'I_n) :
  (forall i, (0 <= F i)%Re) -> (F j <= \sum_i F i)%Re.
Proof.
move=> F0; rewrite (bigD1 j) //=.
have := sum_nonneg (fun i => i != j) F0.
by move: (\sum_(i < n | i != j) F i) (F j) => s t; to_real; lra.
Qed.

Lemma sum_pos (j : 'I_n) :
  (forall i, (0 < F i)%Re) -> (0 < \sum_i F i)%Re.
Proof.
move=> F0; apply: Rlt_le_trans (F0 j) _.
by apply: sum_lower => i; apply: Rlt_le.
Qed.

Lemma sum_div (a : R) : \sum_i (F i / a)%Re = ((\sum_i F i) / a)%Re.
Proof.
have -> : ((\sum_i F i) / a)%Re = (\sum_i F i) * a^-1 by [].
by rewrite mulr_suml.
Qed.

End RealSums.

Lemma div_bounds (a s : R) :
  (0 <= a)%Re -> (a <= s)%Re -> (0 < s)%Re -> (0 <= a / s <= 1)%Re.
Proof.
move=> a0 a_s s0; have is0 : (0 < / s)%Re by apply: Rinv_0_lt_compat.
split; first by apply: Rmult_le_pos => //; apply: Rlt_le.
have <- : (s / s = 1)%Re by field; lra.
by apply: Rmult_le_compat_r => //; apply: Rlt_le.
Qed.

Lemma positiveP (a : R) : reflect (0 < a)%Re (Arma.positive a).
Proof. by rewrite /Arma.positive; case: Rlt_dec => h; constructor. Qed.

(** ** safenormalize *)

Lemma safenormalize_fill_branch n (x : vec n) :
  (Arma.sum x <= 0)%Re ->
  safenormalize x =
    (q <- uint_div 1%num (uint_of_nat n);; Ret (Arma.fill n (double_of_uint q))).
Proof. by rewrite /safenormalize; case: Rle_dec. Qed.

Lemma safenormalize_divide_branch n (x : vec n) :
  (0 < Arma.sum x)%Re ->
  safenormalize x = Ret (Arma.div_scalar x (Arma.sum x)).
Proof.
by rewrite /safenormalize; case: Rle_dec => //= le0 gt0; lra.
Qed.

Lemma sum_vec4 (a b c d : R) :
  @Arma.sum 4 (vec_of_seq [:: a; b; c; d]) = (a + (b + (c + d)))%Re.
Proof.
rewrite /Arma.sum !big_ord_recl big_ord0 !mxE /=.
by to_real; lra.
Qed.

Lemma sum_vec2 (a b : R) :
  @Arma.sum 2 (vec_of_seq [:: a; b]) = (a + b)%Re.
Proof.
rewrite /Arma.sum !big_ord_recl big_ord0 !mxE /=.
by to_real; lra.
Qed.

(** With two or more elements the quotient [1/n] is [0]: the fill branch
    zeroes [x]. *)
Lemma uint_div_one (n : nat) :
  (2 <= N.of_nat n < 2 ^ 32)%num ->
  uint_div 1%num (uint_of_nat n) = Ret 0%num.
Proof.
move=> [n2 n32]; rewrite /uint_of_nat N.mod_small // /uint_div.
have /N.eqb_neq -> : N.of_nat n <> 0%num.
  by move=> n0; rewrite n0 in n2; case: n2.
by rewrite N.div_small //; apply: N.lt_le_trans n2.
Qed.

Lemma safenormalize_fill_zero n (x : vec n) :
  (2 <= N.of_nat n < 2 ^ 32)%num ->
  (Arma.sum x <= 0)%Re ->
  safenormalize x = Ret (Arma.fill n 0%Re).
Proof.
by move=> n_range s0; rewrite safenormalize_fill_branch // uint_div_one.
Qed.

(** The two remaining sizes: a single element is set to [1/1 = 1], and on
    an empty vector [1/n] divides by zero. *)
Lemma safenormalize_fill_singleton (x : vec 1) :
  (Arma.sum x <= 0)%Re -> safenormalize x = Ret (Arma.fill 1 1%Re).
Proof. by move=> s0; rewrite safenormalize_fill_branch. Qed.

Lemma safenormalize_empty (x : vec 0) :
  safenormalize x = Fail UndefinedBehaviour.
Proof.
rewrite safenormalize_fill_branch // /Arma.sum big_ord0.
exact: Rle_refl.
Qed.

(** C1.  On [x = [0, 0, 0, 0]] the code leaves [x] all zero, not
    [[0.25, 0.25, 0.25, 0.25]]: [1/n] is a division of [unsigned int], and
    [1/4] is [0]. *)
Theorem safenormalize_zeros4 :
  safenormalize zeros4 = Ret zeros4 /\ safenormalize zeros4 <> Ret quarters4.
Proof.
have eval : safenormalize zeros4 = Ret zeros4.
  rewrite safenormalize_fill_branch; first by rewrite /zeros4 sum_vec4; lra.
  congr Ret; apply/colP => i; rewrite !mxE.
  by case: i => [[|[|[|[|?]]]] ?].
split=> //; rewrite eval => -[] /colP /(_ ord0).
by rewrite !mxE /=; to_real; lra.
Qed.

(** *** On binary64 numbers *)

Section SafenormalizeBinary64.

Import PrimFloat.

Variable sum : seq float -> float.

Lemma binary64_fill_branch (x : seq float) :
  (sum x <=? 0)%float = true ->
  Binary64.safenormalize sum x =
    (q <- uint_div 1%num (uint_of_nat (size x));;
     Ret (nseq (size x) (Binary64.double_of_uint q))).
Proof. by rewrite /Binary64.safenormalize => ->. Qed.


Lemma binary64_fill_zero (x : seq float) :
  (2 <= N.of_nat (size x) < 2 ^ 32)%num ->
  (sum x <=? 0)%float = true ->
  Binary64.safenormalize sum x = Ret (nseq (size x) 0%float).
Proof.
by move=> n_range s0; rewrite binary64_fill_branch // uint_div_one.
Qed.

End SafenormalizeBinary64.

Section SafenormalizeClaims.

Import PrimFloat.

(** The all-zero vector of C1 on binary64 numbers: it is left all zero,
    for either order of additions. *)
Lemma safenormalize_zeros4_binary64 :
  Binary64.safenormalize Binary64.accumulate Binary64.zeros4
    = Ret Binary64.zeros4
  /\ Binary64.safenormalize Binary64.accumulate_loop Binary64.zeros4
      = Ret Binary64.zeros4.
Proof. by split; vm_compute. Qed.


(** Short of an overflow the quotients are rounded: [[1, 10, 10]] is
    normalized to entries whose double-precision sum is the largest
    [double] below 1. *)
Lemma safenormalize_rounded_sum :
  exists2 y : seq float,
    Binary64.safenormalize Binary64.accumulate Binary64.uneven3 = Ret y
    & Binary64.accumulate y = 0x1.fffffffffffffp-1%float.
Proof.
by exists [seq (t / 21)%float | t <- Binary64.uneven3]; vm_compute.
Qed.





(** The sum that is tested is the rounded one.  The integers
    [2^60, 0, -60, 0, -60, 0, -60, 0, -(2^60 - 128), 0] are all binary64
    numbers and add up to [-52], but their double-precision sum is [128]
    for either order of additions, so that [safenormalize] divides. *)
Lemma safenormalize_tests_rounded_sum :
  [/\ foldr Z.add 0%Z Binary64.cancelling10_integers = (-52)%Z,
      Binary64.accumulate Binary64.cancelling10 = 128%float,
      Binary64.accumulate_loop Binary64.cancelling10 = 128%float
    & Binary64.safenormalize Binary64.accumulate Binary64.cancelling10
        = Ret [seq (t / 128)%float | t <- Binary64.cancelling10]].
Proof. by split; vm_compute. Qed.

End SafenormalizeClaims.

(** ** softmax *)

Lemma max_shift n (x : rowvec n.+1) (c : R) :
  Arma.max (x + const_mx c) = (Arma.max x + c)%Re.
Proof.
rewrite /Arma.max.
have plus_max a b : (Rmax a b + c)%Re = Rmax (a + c) (b + c).
  by rewrite /Rmax; do 2![case: Rle_dec => ?] => //; lra.
rewrite [RHS](big_morph (fun t => (t + c)%Re) plus_max (erefl _)).
by rewrite !mxE; apply: eq_bigr => j _; rewrite !mxE.
Qed.

Lemma bigmax_upper (I : eqType) (r : seq I) (a : R) (F : I -> R) (j : I) :
  j \in r -> (F j <= \big[Rmax/a]_(i <- r) F i)%Re.
Proof.
elim: r => [//|i r IH]; rewrite in_cons big_cons => /orP [/eqP <-|/IH le].
  exact: Rmax_l.
exact: Rle_trans le (Rmax_r _ _).
Qed.

(** [max(x)] is an upper bound of the entries, so no exponent of
    [softmax] is positive. *)
Lemma max_upper_bound n (x : rowvec n.+1) j : (x ord0 j <= Arma.max x)%Re.
Proof. by apply: bigmax_upper; exact: mem_index_enum. Qed.

Section Softmax.

Variables (n : nat) (x : rowvec n.+1).

Let y : rowvec n.+1 := Arma.exp (Arma.minus_scalar x (Arma.max x)).

Lemma softmax_eval : softmax x = Ret (Arma.div_scalar y (Arma.sum_row y)).
Proof. by []. Qed.

Lemma exp_entry j : y 0 j = exp (x ord0 j - Arma.max x)%Re.
Proof. by rewrite !mxE. Qed.

Lemma exp_sum_pos : (0 < Arma.sum_row y)%Re.
Proof.
apply: (sum_pos (F := fun j => y 0 j) ord0) => j.
by rewrite exp_entry; apply: exp_pos.
Qed.

End Softmax.

(** C3.  On a row vector with at least one element, [softmax] returns
    [exp(x[i] - max(x)) / sum_j exp(x[j] - max(x))] in entry [i]; the
    entries sum to 1 and each lies between 0 and 1. *)
Theorem softmax_spec n (x : rowvec n.+1) :
  exists2 y : rowvec n.+1,
    softmax x = Ret y &
    [/\ forall i, y ord0 i =
          (exp (x ord0 i - Arma.max x) /
             \sum_(j < n.+1) exp (x ord0 j - Arma.max x))%Re,
        Arma.sum_row y = 1%Re
      & forall i, (0 <= y ord0 i <= 1)%Re].
Proof.
set e := Arma.exp (Arma.minus_scalar x (Arma.max x)).
have s0 : (0 < Arma.sum_row e)%Re := exp_sum_pos x.
have e0 j : (0 < e ord0 j)%Re by rewrite exp_entry; apply: exp_pos.
exists (Arma.div_scalar e (Arma.sum_row e)); first exact: softmax_eval.
have entry i : (Arma.div_scalar e (Arma.sum_row e)) 0 i
                 = (e ord0 i / Arma.sum_row e)%Re by rewrite mxE.
split=> [i||i].
- rewrite entry exp_entry; congr (_ / _)%Re.
  by apply: eq_bigr => j _; rewrite exp_entry.
- rewrite {1}/Arma.sum_row (eq_bigr (fun j => (e ord0 j / Arma.sum_row e)%Re)) //.
  by rewrite sum_div -/(Arma.sum_row e); field; lra.
- rewrite entry; have es : (e ord0 i <= Arma.sum_row e)%Re.
    by apply: (sum_lower (F := fun j => e 0 j)) => j; apply: Rlt_le.
  by apply: div_bounds => //; apply: Rlt_le.
Qed.

(** C7.  Adding the same constant [c] to every entry of [x] does not
    change [softmax x]. *)
Theorem softmax_shift_invariant n (x : rowvec n.+1) (c : R) :
  softmax (x + const_mx c) = softmax x.
Proof.
rewrite !softmax_eval.
suff -> : Arma.exp (Arma.minus_scalar (x + const_mx c) (Arma.max (x + const_mx c)))
          = Arma.exp (Arma.minus_scalar x (Arma.max x)) by [].
apply/rowP => j; rewrite !mxE max_shift; congr exp.
by move: (x 0 j) (Arma.max x) => a b; to_real; lra.
Qed.

(** ** scale_rows *)

(** C5.  [scale_rows] multiplies every entry of row [i] of [A] by [b[i]],
    which is the product [diag(b) * A], and leaves [b] as it was;
    [[1,2],[3,4]] with [b = [1,2]] becomes [[1,2],[6,8]]. *)
Theorem scale_rows_spec m n (A : mat m n) (b : vec m) :
  [/\ forall i j, (scale_rows A b).1 i j = (b i ord0 * A i j)%Re,
      (scale_rows A b).1 = diag_mx b^T *m A,
      (scale_rows A b).2 = b
    & scale_rows A22 b12 = (A22_scaled, b12)].
Proof.
have entry (B : mat m n) i j : (scale_rows B b).1 i j = (b i ord0 * B i j)%Re.
  by rewrite mxE mulrC.
split=> //.
- by rewrite mul_diag_mx; apply/matrixP => i j; rewrite entry !mxE.
- rewrite /scale_rows; congr pair; apply/matrixP => i j; rewrite !mxE.
  by case: i j => [[|[|?]] ?] [[|[|?]] ?] //=; to_real; lra.
Qed.

(** ** crossprod *)

(** C6.  [crossprod X] is the [n] by [n] product of the transpose of [X]
    with [X]: its entry [(i, j)] is the sum over the rows [k] of
    [X[k,i] * X[k,j]], and it equals its own transpose.  [X] is a [const]
    argument of a function that returns a new matrix. *)
Theorem crossprod_spec m n (X : mat m n) :
  [/\ crossprod X = X^T *m X,
      forall i j, crossprod X i j = \sum_(k < m) (X k i * X k j)%Re
    & (crossprod X)^T = crossprod X].
Proof.
split=> // [i j|]; last by rewrite /crossprod trmx_mul trmxK.
by rewrite mxE; apply: eq_bigr => k _; rewrite mxE.
Qed.

(** ** ldmvnorm *)


Lemma sqrt_2PI_pos : (0 < sqrt (2 * PI))%Re.
Proof. by apply: sqrt_lt_R0; have := PI_RGT_0; lra. Qed.


Lemma norm2_square n (z : vec n) : (Arma.norm2 z * Arma.norm2 z)%Re = sqnorm z.
Proof.
rewrite /Arma.norm2 sqrt_sqrt //; apply: sum_nonneg => i.
by have := Rle_0_sqr (z i 0); rewrite /Rsqr.
Qed.

Lemma sqnorm_mulmx n (z : vec n) : sqnorm z = (z^T *m z) 0 0.
Proof. by rewrite mxE; apply: eq_bigr => i _; rewrite mxE. Qed.







Lemma log_scaled_diag n (L : mat n n) :
  positive_diagonal L ->
  exists2 l : vec n,
    Arma.log (Arma.times_scalar (sqrt (2 * PI)%Re) (Arma.diag L)) = Ret l &
    Arma.sum l = \sum_(i < n) ln (sqrt (2 * PI) * L i i)%Re.
Proof.
move=> pd; set v := Arma.times_scalar _ _.
exists (map_mx ln v).
  rewrite /Arma.log; case: forallP => // -[] i; apply/positiveP.
  by rewrite !mxE; apply: Rmult_lt_0_compat => //; apply: sqrt_2PI_pos.
by apply: eq_bigr => i _; rewrite !mxE.
Qed.

Lemma solve_by_inverse_contract : solve_contract solve_by_inverse.
Proof.
move=> n L x unitL; exists (invmx L *m x); first by rewrite /solve_by_inverse unitL.
by rewrite mulKVmx.
Qed.

Section LdmvnormProperties.

Variable solve : forall n, mat n n -> vec n -> outcome (vec n).
Hypothesis solve_ok : solve_contract solve.

Variables (n : nat) (x : vec n) (L : mat n n).

Lemma solve_nonsingular : L \in unitmx -> solve L x = Ret (invmx L *m x).
Proof.
move=> unitL; have [z -> Lz] := solve_ok x unitL.
by rewrite -Lz mulKmx.
Qed.


Lemma ldmvnorm_eval :
  L \in unitmx -> positive_diagonal L ->
  ldmvnorm solve x L =
    Ret (- (1 / 2) * sqnorm (invmx L *m x)
         - \sum_(i < n) ln (sqrt (2 * PI) * L i i))%Re.
Proof.
move=> unitL pd; rewrite /ldmvnorm solve_nonsingular //=.
have [l -> /= ->] := log_scaled_diag pd; congr Ret.
rewrite -norm2_square; set d := Arma.norm2 _.
by move: (\sum_(i < n) _) => s; field.
Qed.

End LdmvnormProperties.

Section LdmvnormClaims.

Variable solve : forall n, mat n n -> vec n -> outcome (vec n).
Hypothesis solve_ok : solve_contract solve.




End LdmvnormClaims.

(** *** Instances *)







Lemma full22_inverse : full22 *m full22_inv = 1%:M.
Proof.
apply/matrixP => i j; rewrite !mxE !big_ord_recl big_ord0 !mxE.
by case: i j => [[|[|?]] ?] [[|[|?]] ?] //=; rewrite ?mulr1n ?mulr0n; to_real; lra.
Qed.

Lemma full22_unit : full22 \in unitmx.
Proof. by case: (mulmx1_unit full22_inverse). Qed.

Lemma full22_positive_diagonal : positive_diagonal full22.
Proof. by move=> [[|[|?]] ?] //=; rewrite mxE /=; lra. Qed.



(** * Further properties *)

Lemma scale_rows_diag m n (A : mat m n) (b : vec m) :
  (scale_rows A b).1 = diag_mx b^T *m A.
Proof.
by rewrite mul_diag_mx; apply/matrixP => i j; rewrite !mxE mulrC.
Qed.


(** ** crossprod *)

Lemma sqnorm_ge0 n (z : vec n) : (0 <= sqnorm z)%Re.
Proof.
apply: sum_nonneg => i.
by have := Rle_0_sqr (z i 0); rewrite /Rsqr.
Qed.

(** X4.  [crossprod X] is positive semidefinite: for every vector [v],
    the quadratic form [v^T (crossprod X) v] is the squared norm of
    [X v], which is not negative. *)
Theorem crossprod_psd m n (X : mat m n) (v : vec n) :
  (v^T *m crossprod X *m v) 0 0 = sqnorm (X *m v) /\
  (0 <= (v^T *m crossprod X *m v) ord0 ord0)%Re.
Proof.
have quad : (v^T *m crossprod X *m v) 0 0 = sqnorm (X *m v).
  by rewrite sqnorm_mulmx trmx_mul /crossprod !mulmxA.
by split=> //; rewrite quad; apply: sqnorm_ge0.
Qed.

(** X5.  A matrix with no rows gives the all-zero [n] by [n] matrix. *)
Theorem crossprod_no_rows n (X : mat 0 n) : crossprod X = 0.
Proof. by apply/matrixP => i j; rewrite !mxE big_ord0. Qed.

(** X7.  The trace of [crossprod X] is the sum of the squares of all the
    entries of [X], and every diagonal entry is not negative. *)
Theorem crossprod_trace m n (X : mat m n) :
  \tr (crossprod X) = \sum_(k < m) \sum_(j < n) X k j * X k j /\
  forall j, (0 <= crossprod X j j)%Re.
Proof.
split=> [|j].
  rewrite /mxtrace exchange_big /=; apply: eq_bigr => j _.
  by rewrite mxE; apply: eq_bigr => k _; rewrite mxE.
rewrite mxE; apply: sum_nonneg => k; rewrite mxE.
by have := Rle_0_sqr (X k j); rewrite /Rsqr.
Qed.


(** X10.  [crossprod] after [scale_rows]: the cross-product of the
    row-scaled matrix is the weighted cross-product
    [A^T * diag(b[i]^2) * A]. *)
Theorem crossprod_scale_rows m n (A : mat m n) (b : vec m) :
  crossprod (scale_rows A b).1 = A^T *m diag_mx (schur b b)^T *m A.
Proof.
rewrite scale_rows_diag /crossprod trmx_mul tr_diag_mx !mulmxA.
rewrite -[A^T *m _ *m _]mulmxA mulmx_diag; congr (_ *m _ *m _).
by congr diag_mx; apply/rowP => j; rewrite !mxE.
Qed.

(** ** softmax *)

Lemma natmul_INR (a : R) (k : nat) : a *+ k = (INR k * a)%Re.
Proof.
elim: k => [|k IH]; first by rewrite mulr0n /=; to_real; lra.
by rewrite mulrS IH S_INR; to_real; lra.
Qed.

Lemma max_const n (c : R) : Arma.max (const_mx c : rowvec n.+1) = c.
Proof.
rewrite /Arma.max mxE; elim/big_ind: _ => // [a b -> ->|j _].
  by rewrite /Rmax; case: Rle_dec.
by rewrite mxE.
Qed.

(** X12.  [softmax] computes what the comment above it promises: entry
    [i] of the result is [exp(x[i]) / sum_j exp(x[j])]; subtracting
    [max(x)] does not change the value. *)
Theorem softmax_naive n (x : rowvec n.+1) :
  exists2 y : rowvec n.+1,
    softmax x = Ret y &
    forall i, y ord0 i =
      (exp (x ord0 i) / \sum_(j < n.+1) exp (x ord0 j))%Re.
Proof.
set e := Arma.exp (Arma.minus_scalar x (Arma.max x)).
exists (Arma.div_scalar e (Arma.sum_row e)); first exact: softmax_eval.
move=> i; rewrite mxE exp_entry.
have shift t : exp (t - Arma.max x) = (exp t * exp (- Arma.max x))%Re.
  by rewrite -exp_plus.
have -> : Arma.sum_row e
          = ((\sum_(j < n.+1) exp (x ord0 j)) * exp (- Arma.max x))%Re.
  have -> : ((\sum_(j < n.+1) exp (x ord0 j)) * exp (- Arma.max x))%Re
            = (\sum_(j < n.+1) exp (x ord0 j)) * exp (- Arma.max x) by [].
  rewrite mulr_suml; apply: eq_bigr => j _.
  by rewrite exp_entry shift.
have s0 : (0 < \sum_(j < n.+1) exp (x ord0 j))%Re.
  by apply: (sum_pos ord0) => j; apply: exp_pos.
have m0 := exp_pos (- Arma.max x).
by rewrite shift; field; split; apply: Rgt_not_eq.
Qed.

(** X15.  On a vector whose entries are all equal, [softmax] returns the
    uniform distribution: every entry is 1 over the number of entries. *)
Theorem softmax_const n (c : R) :
  softmax (const_mx c : rowvec n.+1) = Ret (const_mx (/ INR n.+1)%Re).
Proof.
rewrite softmax_eval; set e := Arma.exp _.
have e1 j : e ord0 j = 1%Re.
  by rewrite exp_entry max_const mxE -exp_0; congr exp; lra.
have s1 : Arma.sum_row e = INR n.+1.
  rewrite /Arma.sum_row (eq_bigr (fun=> 1%Re)) //.
  by rewrite sumr_const card_ord natmul_INR Rmult_1_r.
congr Ret; apply/rowP => j; rewrite [RHS]mxE [LHS]mxE.
by rewrite e1 s1 /Rdiv Rmult_1_l.
Qed.

(** ** safenormalize *)

From Stdlib Require Import Lia.

Section SafenormalizeFillZero.

Import PrimFloat.

(** X18.  On a vector of two or more (and fewer than 2^32) elements on
    which the test [sum(x) <= 0] holds for the double-precision sum,
    [safenormalize] succeeds and leaves every entry equal to 0. *)
Theorem safenormalize_fill_zeroes
    (sum : seq float -> float) (x : seq float) :
  (2 <= N.of_nat (size x) < 2 ^ 32)%num ->
  (sum x <=? 0)%float = true ->
  Binary64.safenormalize sum x = Ret (nseq (size x) 0%float).
Proof. exact: binary64_fill_zero. Qed.

Lemma safenormalize_fill_zeroes_mixed_sign2 :
  Binary64.safenormalize Binary64.accumulate Binary64.mixed_sign2
    = Ret [:: 0; 0]%float.
Proof.
by apply: (@safenormalize_fill_zeroes Binary64.accumulate Binary64.mixed_sign2).
Defined.

End SafenormalizeFillZero.

(** X19.  Below 2^32 elements, [safenormalize] fails on the empty vector
    (where [1/n] divides by zero) and on no other vector. *)
Theorem safenormalize_fails_on_empty_only n (x : vec n) :
  (N.of_nat n < 2 ^ 32)%num ->
  (n = 0%N -> safenormalize x = Fail UndefinedBehaviour) /\
  (n <> 0%N -> exists y, safenormalize x = Ret y).
Proof.
move=> n32; split=> [n0|n0].
  by case: n x n32 n0 => // x _ _; apply: safenormalize_empty.
case: (Rle_or_lt (Arma.sum x) 0) => [s0|s0]; last first.
  by rewrite safenormalize_divide_branch //; eexists.
rewrite safenormalize_fill_branch // /uint_of_nat N.mod_small // /uint_div.
have /N.eqb_neq -> : N.of_nat n <> 0%num by lia.
by eexists.
Qed.

Lemma safenormalize_zeros4_returns :
  (4 = 0 -> safenormalize zeros4 = Fail UndefinedBehaviour)%N /\
  (4 <> 0 -> exists y, safenormalize zeros4 = Ret y)%N.
Proof. by apply: safenormalize_fails_on_empty_only. Defined.

(** X20.  A vector with a single element always becomes [[1]], whatever
    the element. *)
Theorem safenormalize_singleton (x : vec 1) :
  safenormalize x = Ret (const_mx 1%Re).
Proof.
case: (Rle_or_lt (Arma.sum x) 0) => [s0|s0].
  by rewrite safenormalize_fill_singleton.
rewrite safenormalize_divide_branch //; congr Ret.
apply/colP => i; rewrite !mxE.
have <- : x i 0 = Arma.sum x by rewrite /Arma.sum big_ord1 !ord1.
by field; move: s0; rewrite /Arma.sum big_ord1 !ord1; lra.
Qed.

(** ** ldmvnorm *)

Lemma norm2_opp n (z : vec n) : Arma.norm2 (- z) = Arma.norm2 z.
Proof.
rewrite /Arma.norm2; congr sqrt; apply: eq_bigr => i _.
by rewrite !mxE mulrNN.
Qed.

Lemma sqnorm0 n : sqnorm (0 : vec n) = 0.
Proof.
rewrite /sqnorm (eq_bigr (fun=> 0)); first by move=> i _; rewrite mxE mul0r.
by rewrite sumr_const mul0rn.
Qed.



Lemma flipped22_inverse : flipped22 *m flipped22_inv = 1%:M.
Proof.
apply/matrixP => i j; rewrite !mxE !big_ord_recl big_ord0 !mxE.
by case: i j => [[|[|?]] ?] [[|[|?]] ?] //=; rewrite ?mulr1n ?mulr0n; to_real; lra.
Qed.

Lemma flipped22_unit : flipped22 \in unitmx.
Proof. by case: (mulmx1_unit flipped22_inverse). Qed.

Section LdmvnormFurther.

Variable solve : forall n, mat n n -> vec n -> outcome (vec n).
Hypothesis solve_ok : solve_contract solve.

(** X22.  For an invertible [L] with a positive diagonal, no value of
    [ldmvnorm] exceeds its value at [x = 0]. *)
Theorem ldmvnorm_max_at_zero n (x : vec n) (L : mat n n) :
  L \in unitmx -> positive_diagonal L ->
  exists v0 v : R,
    [/\ ldmvnorm solve 0 L = Ret v0,
        ldmvnorm solve x L = Ret v
      & (v <= v0)%Re].
Proof.
move=> unitL pd.
exists (- (1 / 2) * sqnorm (invmx L *m (0 : vec n))
        - \sum_(i < n) ln (sqrt (2 * PI) * L i i))%Re.
exists (- (1 / 2) * sqnorm (invmx L *m x)
        - \sum_(i < n) ln (sqrt (2 * PI) * L i i))%Re.
have q0 := sqnorm_ge0 (invmx L *m x).
have zero : sqnorm (invmx L *m (0 : vec n)) = 0%Re by rewrite mulmx0 sqnorm0.
split; try exact: ldmvnorm_eval.
by rewrite zero; move: (sqnorm _) (\sum_(i < n) _) q0 => q s q0; lra.
Qed.

(** X23.  For an invertible [L], [ldmvnorm] returns the same at [-x] and
    at [x]. *)
Theorem ldmvnorm_even n (x : vec n) (L : mat n n) :
  L \in unitmx -> ldmvnorm solve (- x) L = ldmvnorm solve x L.
Proof.
move=> unitL; rewrite /ldmvnorm !(solve_nonsingular solve_ok) //=.
by rewrite mulmxN norm2_opp.
Qed.


(** X25.  When the diagonal of an invertible [L] has an entry that is
    not positive, [ldmvnorm] returns no real number: the logarithm of
    that entry's term is minus infinity or a NaN. *)
Theorem ldmvnorm_nonpositive_diagonal n (x : vec n) (L : mat n n) :
  L \in unitmx -> (exists i, (L i i <= 0)%Re) ->
  ldmvnorm solve x L = Fail NotReal.
Proof.
move=> unitL [i Li]; rewrite /ldmvnorm (solve_nonsingular solve_ok) //=.
rewrite /Arma.log; case: forallP => // /(_ i) /positiveP; rewrite !mxE => pos.
have := Rmult_le_compat_l _ _ _ (Rlt_le _ _ sqrt_2PI_pos) Li.
by lra.
Qed.


End LdmvnormFurther.

Lemma ldmvnorm_max_at_zero_full22 :
  exists v0 v : R,
    [/\ ldmvnorm solve_by_inverse 0 full22 = Ret v0,
        ldmvnorm solve_by_inverse ones2 full22 = Ret v
      & (v <= v0)%Re].
Proof.
exact: (ldmvnorm_max_at_zero solve_by_inverse_contract ones2
          full22_unit full22_positive_diagonal).
Defined.

Lemma ldmvnorm_even_full22 :
  ldmvnorm solve_by_inverse (- ones2) full22
  = ldmvnorm solve_by_inverse ones2 full22.
Proof.
exact: (ldmvnorm_even solve_by_inverse_contract ones2 full22_unit).
Defined.



Lemma flipped22_nonpositive : exists i, (flipped22 i i <= 0)%Re.
Proof. by exists ord0; rewrite mxE /=; lra. Qed.

Lemma ldmvnorm_flipped22 :
  ldmvnorm solve_by_inverse ones2 flipped22 = Fail NotReal.
Proof.
exact: (ldmvnorm_nonpositive_diagonal solve_by_inverse_contract ones2
          flipped22_unit flipped22_nonpositive).
Defined.


